(** * WiFiLight: the build-time configuration header [config.h]

    The header is a flat list of object-like macro definitions.  The
    development has two layers:

    - the values the macros stand for, one Rocq constant per macro, under
      the macro's own name;
    - the header itself as a list of preprocessor directives run over a
      macro table, so that "what does NAME expand to at this point of the
      translation unit" is a function that can be evaluated. *)

From Stdlib Require Import ZArith String Ascii List Lia.
From stdpp Require Import gmap strings list fin_maps.

Local Open Scope Z_scope.

(** ** Replacement lists *)

(** The replacement list of every macro of the header is a single token:
    an integer literal, a string literal, or an identifier ([D2], the
    board's name for a pin). *)
Inductive pp_token : Type :=
  | PInt (n : Z)
  | PStr (s : string)
  | PIdent (s : string).

(** ** The macros of [config.h] *)

Module Config.

(* general *)
Definition ID_PREFIX : string := "LIGHT-".

(* LED *)
Definition NUM_LEDS : Z := 8.
Definition DATA_PIN : pp_token := PIdent "D2".

(* MQTT *)
Definition MQTT_PORT : Z := 1883.
Definition MQTT_SERVER : string := "mymqttserver.com".
Definition MQTT_USER : string := "user".
Definition MQTT_PASSWORD : string := "password".
Definition MQTT_STATE_TOPIC : string := "light".
Definition MQTT_COMMAND_TOPIC : string := "light-set".

(* HTTP *)
Definition HTTP_SERVER_PORT : Z := 80.

(* WebSockets *)
Definition WEBSOCKET_PORT : Z := 81.

End Config.

Import Config.

(** ** The preprocessor's macro table *)

(** The two directives that act on the macro table.  [config.h] only ever
    uses the first; the second is what a header would need in order to
    take a definition back. *)
Inductive directive : Type :=
  | Define (name : string) (body : pp_token)
  | Undef (name : string).

Definition directive_name (d : directive) : string :=
  match d with
  | Define name _ => name
  | Undef name => name
  end.

Definition is_define (d : directive) : bool :=
  match d with
  | Define _ _ => true
  | Undef _ => false
  end.

(** One directive: [#define] binds the name (a later definition of the
    same name takes its place), [#undef] removes it. *)
Definition exec (d : directive) (m : gmap string pp_token) : gmap string pp_token :=
  match d with
  | Define name body => <[name := body]> m
  | Undef name => delete name m
  end.

(** The directives of a file, first to last. *)
Fixpoint preprocess (ds : list directive) (m : gmap string pp_token)
  : gmap string pp_token :=
  match ds with
  | [] => m
  | d :: ds' => preprocess ds' (exec d m)
  end.

(** [config.h], directive by directive, in the order of the file. *)
Definition config_h : list directive :=
  [ Define "ID_PREFIX" (PStr ID_PREFIX);
    Define "NUM_LEDS" (PInt NUM_LEDS);
    Define "DATA_PIN" DATA_PIN;
    Define "MQTT_PORT" (PInt MQTT_PORT);
    Define "MQTT_SERVER" (PStr MQTT_SERVER);
    Define "MQTT_USER" (PStr MQTT_USER);
    Define "MQTT_PASSWORD" (PStr MQTT_PASSWORD);
    Define "MQTT_STATE_TOPIC" (PStr MQTT_STATE_TOPIC);
    Define "MQTT_COMMAND_TOPIC" (PStr MQTT_COMMAND_TOPIC);
    Define "HTTP_SERVER_PORT" (PInt HTTP_SERVER_PORT);
    Define "WEBSOCKET_PORT" (PInt WEBSOCKET_PORT) ].

(** The macro table the header builds by itself, up to its line [k]:
    the first [k] directives of the header, starting from no macro at
    all.  What the compiler or the including file defined before, and
    what the including file does afterwards, is not part of it; from
    [length config_h] on it is the table of the whole header. *)
Definition macros_at (k : nat) : gmap string pp_token :=
  preprocess (take k config_h) ∅.

(** The replacement list the header has given a name by its line [k];
    [None] when none of these lines defines the name. *)
Definition expand_at (k : nat) (name : string) : option pp_token :=
  macros_at k !! name.

(** ** Predicates used to state the properties *)

(** A value that a [uint16_t] holds unchanged. *)
Definition fits_uint16 (z : Z) : Prop := 0 <= z < 2 ^ 16.

(** The conversion of an [int] to [uint16_t]. *)
Definition to_uint16 (z : Z) : Z := z mod 2 ^ 16.

(** A port a listener or a client can use. *)
Definition valid_port (z : Z) : Prop := 1 <= z <= 65535.

(** The characters MQTT gives a meaning to inside a topic. *)
Definition is_wildcard (c : ascii) : bool :=
  (Ascii.eqb c "+" || Ascii.eqb c "#")%bool.

Definition is_level_separator (c : ascii) : bool := Ascii.eqb c "/".

Fixpoint string_existsb (p : ascii -> bool) (s : string) : bool :=
  match s with
  | EmptyString => false
  | String c s' => (p c || string_existsb p s')%bool
  end.

(** The levels of a topic: the pieces between the separators. *)
Fixpoint topic_levels_from (cur : string) (s : string) : list string :=
  match s with
  | EmptyString => [cur]
  | String c s' =>
      if is_level_separator c
      then cur :: topic_levels_from EmptyString s'
      else topic_levels_from (cur +:+ String c EmptyString) s'
  end.

Definition topic_levels (s : string) : list string :=
  topic_levels_from EmptyString s.

(** A topic a client may publish to: at least one character and no
    wildcard. *)
Definition valid_publish_topic (s : string) : bool :=
  (negb (String.eqb s EmptyString) && negb (string_existsb is_wildcard s))%bool.

(** ** More of the preprocessor: redefinition, inclusion, rescanning *)

#[global] Instance pp_token_eq_dec : EqDecision pp_token.
Proof. solve_decision. Defined.

(** The names [config.h] gives a meaning to, in the order of the file. *)
Definition config_names : list string := directive_name <$> config_h.

(** [#define] with the language's rule for a name that is a macro
    already: the same replacement list again is accepted and changes
    nothing, a different one is an error ([None]). *)
Definition exec_strict (d : directive) (m : gmap string pp_token)
  : option (gmap string pp_token) :=
  match d with
  | Define name body =>
      match m !! name with
      | None => Some (<[name := body]> m)
      | Some old => if decide (old = body) then Some m else None
      end
  | Undef name => Some (delete name m)
  end.

Fixpoint preprocess_strict (ds : list directive) (m : gmap string pp_token)
  : option (gmap string pp_token) :=
  match ds with
  | [] => Some m
  | d :: ds' =>
      match exec_strict d m with
      | Some m' => preprocess_strict ds' m'
      | None => None
      end
  end.

(** What a translation unit sees when it includes a header [n] times.
    [config.h] has no include guard, so each inclusion brings every line
    of it again. *)
Fixpoint include_times (n : nat) (h : list directive) : list directive :=
  match n with
  | O => []
  | S n' => h ++ include_times n' h
  end.

(** Rescanning of a replacement list: an identifier that is a macro is
    replaced in its turn; a literal, or an identifier that is no macro,
    stays. *)
Definition rescan (m : gmap string pp_token) (t : pp_token) : pp_token :=
  match t with
  | PIdent x =>
      match m !! x with
      | Some body => body
      | None => t
      end
  | _ => t
  end.

(** The replacement list of [d] names no macro among [names]. *)
Definition body_closed (names : list string) (d : directive) : bool :=
  match d with
  | Define _ (PIdent x) => bool_decide (x ∉ names)
  | _ => true
  end.

(** [m] already has what [d] defines. *)
Definition agrees (m : gmap string pp_token) (d : directive) : Prop :=
  match d with
  | Define name body => m !! name = Some body
  | Undef _ => False
  end.

(** [t] is not replaced any further under [m]: a literal, or an
    identifier that is no macro. *)
Definition final_in (m : gmap string pp_token) (t : pp_token) : Prop :=
  match t with
  | PIdent x => m !! x = None
  | _ => True
  end.

(** Macro replacement of a token, to the end: an identifier that is a
    macro is replaced by its replacement list, and the result is scanned
    again; a name that is being replaced ([hide]) is not replaced a
    second time, so a macro that mentions itself stops there.  Every
    replacement hides one more macro, so [fuel] above the number of
    macros is never used up. *)
Fixpoint expand_token (fuel : nat) (hide : gset string)
    (m : gmap string pp_token) (t : pp_token) : pp_token :=
  match fuel with
  | O => t
  | S fuel' =>
      match t with
      | PIdent x =>
          if decide (x ∈ hide) then t
          else match m !! x with
               | Some body => expand_token fuel' ({[x]} ∪ hide) m body
               | None => t
               end
      | _ => t
      end
  end.

Definition full_expand (m : gmap string pp_token) (t : pp_token) : pp_token :=
  expand_token (S (size m)) ∅ m t.

(** ** The macro table: general facts *)

Section Preprocess.

Implicit Types (ds : list directive) (m : gmap string pp_token)
               (n : string) (v : pp_token).

Lemma preprocess_app ds1 ds2 m :
  preprocess (ds1 ++ ds2) m = preprocess ds2 (preprocess ds1 m).
Proof.
  revert m. induction ds1 as [|d ds1 IH]; intros m; simpl; [done|].
  apply IH.
Qed.

Lemma exec_other d m n :
  directive_name d ≠ n -> exec d m !! n = m !! n.
Proof.
  destruct d as [name body|name]; simpl; intros Hne.
  - by rewrite lookup_insert_ne.
  - by rewrite lookup_delete_ne.
Qed.

(** Directives that do not name [n] leave its entry alone. *)
Lemma preprocess_untouched ds m n :
  Forall (fun d => directive_name d ≠ n) ds ->
  preprocess ds m !! n = m !! n.
Proof.
  intros H. revert m. induction H as [|d ds Hd _ IH]; intros m; simpl.
  - done.
  - rewrite IH. by apply exec_other.
Qed.

(** A name that is a macro after [ds] is named by one of [ds]. *)
Lemma preprocess_defined ds n v :
  preprocess ds ∅ !! n = Some v -> n ∈ directive_name <$> ds.
Proof.
  intros Hl.
  destruct (decide (n ∈ directive_name <$> ds)) as [|Hn]; [done|].
  exfalso.
  assert (Forall (fun d => directive_name d ≠ n) ds) as HF.
  { apply Forall_forall. intros d Hd Heq. apply Hn.
    apply list_elem_of_fmap. exists d. by split. }
  rewrite (preprocess_untouched _ _ _ HF), lookup_empty in Hl. done.
Qed.

End Preprocess.

(** ** The header: each name once, and nothing taken back *)

Lemma config_h_only_defines : forallb is_define config_h = true.
Proof. reflexivity. Qed.

Lemma config_h_names_NoDup : NoDup (directive_name <$> config_h).
Proof. apply (bool_decide_unpack _). vm_compute. exact I. Qed.

Lemma config_h_take_NoDup (k : nat) :
  NoDup (directive_name <$> take k config_h).
Proof.
  rewrite fmap_take.
  eapply sublist_NoDup; [apply config_h_names_NoDup | apply sublist_take].
Qed.

(** After the whole header every macro expands to the constant of the
    same name. *)
Lemma config_h_expands :
  let n := length config_h in
  expand_at n "ID_PREFIX" = Some (PStr ID_PREFIX) /\
  expand_at n "NUM_LEDS" = Some (PInt NUM_LEDS) /\
  expand_at n "DATA_PIN" = Some DATA_PIN /\
  expand_at n "MQTT_PORT" = Some (PInt MQTT_PORT) /\
  expand_at n "MQTT_SERVER" = Some (PStr MQTT_SERVER) /\
  expand_at n "MQTT_USER" = Some (PStr MQTT_USER) /\
  expand_at n "MQTT_PASSWORD" = Some (PStr MQTT_PASSWORD) /\
  expand_at n "MQTT_STATE_TOPIC" = Some (PStr MQTT_STATE_TOPIC) /\
  expand_at n "MQTT_COMMAND_TOPIC" = Some (PStr MQTT_COMMAND_TOPIC) /\
  expand_at n "HTTP_SERVER_PORT" = Some (PInt HTTP_SERVER_PORT) /\
  expand_at n "WEBSOCKET_PORT" = Some (PInt WEBSOCKET_PORT).
Proof. vm_compute. repeat split. Qed.

(** ** Strings, topics and 16-bit values: general facts *)

Lemma to_uint16_fits (z : Z) : fits_uint16 z -> to_uint16 z = z.
Proof. unfold fits_uint16, to_uint16. intros H. by apply Z.mod_small. Qed.

Lemma valid_port_fits_uint16 (z : Z) : valid_port z -> fits_uint16 z.
Proof. unfold valid_port, fits_uint16. lia. Qed.

Lemma append_cons (a : ascii) (s t : string) :
  String a s +:+ t = String a (s +:+ t).
Proof. reflexivity. Qed.

Lemma append_snoc (s t : string) (c : ascii) :
  (s +:+ String c EmptyString) +:+ t = s +:+ String c t.
Proof.
  induction s as [|a s IH]; [reflexivity|].
  by rewrite !append_cons, IH.
Qed.

Lemma append_empty_r (s : string) : s +:+ EmptyString = s.
Proof.
  induction s as [|a s IH]; [reflexivity|].
  by rewrite append_cons, IH.
Qed.

Lemma prefix_append (s t : string) : String.prefix s (s +:+ t) = true.
Proof.
  induction s as [|a s IH]; [by destruct t|].
  rewrite append_cons. simpl.
  destruct (ascii_dec a a) as [_|Hne]; [exact IH | by destruct Hne].
Qed.

Lemma length_append (s t : string) :
  String.length (s +:+ t) = (String.length s + String.length t)%nat.
Proof.
  induction s as [|a s IH]; [reflexivity|].
  rewrite append_cons. simpl. by rewrite IH.
Qed.

(** A topic without a separator is one level, the topic itself. *)
Lemma topic_levels_from_no_separator (cur s : string) :
  string_existsb is_level_separator s = false ->
  topic_levels_from cur s = [cur +:+ s].
Proof.
  revert cur. induction s as [|c s IH]; intros cur; simpl.
  - intros _. by rewrite append_empty_r.
  - intros H. apply orb_false_iff in H as [Hc Hs].
    rewrite Hc, (IH _ Hs). by rewrite append_snoc.
Qed.

Lemma topic_levels_no_separator (s : string) :
  string_existsb is_level_separator s = false -> topic_levels s = [s].
Proof. intros H. unfold topic_levels. by rewrite topic_levels_from_no_separator. Qed.

(** ** The properties of the configuration *)

(** C1: the topic on which the state is reported and the topic on which
    commands arrive are different strings. *)
Theorem mqtt_topics_distinct :
  String.eqb MQTT_STATE_TOPIC MQTT_COMMAND_TOPIC = false /\
  MQTT_STATE_TOPIC <> MQTT_COMMAND_TOPIC.
Proof. split; [reflexivity | discriminate]. Qed.

(** C2: each of the three ports MQTT_PORT, HTTP_SERVER_PORT and
    WEBSOCKET_PORT lies in 1..65535, and no two of them are equal. *)
Theorem ports_valid_and_distinct :
  (valid_port MQTT_PORT /\ valid_port HTTP_SERVER_PORT /\ valid_port WEBSOCKET_PORT) /\
  (MQTT_PORT <> HTTP_SERVER_PORT /\
   MQTT_PORT <> WEBSOCKET_PORT /\
   HTTP_SERVER_PORT <> WEBSOCKET_PORT).
Proof.
  unfold valid_port, MQTT_PORT, HTTP_SERVER_PORT, WEBSOCKET_PORT.
  repeat split; lia.
Qed.

(** C3: the number of LEDs NUM_LEDS is a positive integer. *)
Theorem num_leds_positive : 0 < NUM_LEDS.
Proof. unfold NUM_LEDS. lia. Qed.

(** C4: the prefix of the device identifier ID_PREFIX is not the empty
    string: it has at least one character. *)
Theorem id_prefix_nonempty :
  String.eqb ID_PREFIX EmptyString = false /\
  ID_PREFIX <> EmptyString /\
  (0 < String.length ID_PREFIX)%nat.
Proof. split; [reflexivity | split; [discriminate | simpl; lia]]. Qed.

(** C5: MQTT_PORT fits in a 16-bit unsigned integer (the conversion to
    uint16_t leaves it unchanged) and is one of the two usual MQTT ports,
    1883 or 8883. *)
Theorem mqtt_port_typical :
  fits_uint16 MQTT_PORT /\
  to_uint16 MQTT_PORT = MQTT_PORT /\
  (MQTT_PORT = 1883 \/ MQTT_PORT = 8883).
Proof.
  assert (fits_uint16 MQTT_PORT) as Hfit
    by (unfold fits_uint16, MQTT_PORT; lia).
  split; [exact Hfit | split; [by apply to_uint16_fits | by left]].
Qed.

(** C6: HTTP_SERVER_PORT fits in a 16-bit unsigned integer (the
    conversion to uint16_t leaves it unchanged) and is the default HTTP
    port, 80. *)
Theorem http_server_port_default :
  fits_uint16 HTTP_SERVER_PORT /\
  to_uint16 HTTP_SERVER_PORT = HTTP_SERVER_PORT /\
  HTTP_SERVER_PORT = 80.
Proof.
  assert (fits_uint16 HTTP_SERVER_PORT) as Hfit
    by (unfold fits_uint16, HTTP_SERVER_PORT; lia).
  split; [exact Hfit | split; [by apply to_uint16_fits | reflexivity]].
Qed.

(** C8: the command topic is the state topic followed by "-set", so the
    state topic is a proper prefix of the command topic. *)
Theorem command_topic_is_state_topic_set :
  MQTT_COMMAND_TOPIC = MQTT_STATE_TOPIC +:+ "-set" /\
  String.prefix MQTT_STATE_TOPIC MQTT_COMMAND_TOPIC = true /\
  (String.length MQTT_STATE_TOPIC < String.length MQTT_COMMAND_TOPIC)%nat.
Proof.
  assert (MQTT_COMMAND_TOPIC = MQTT_STATE_TOPIC +:+ "-set") as Heq
    by reflexivity.
  split; [exact Heq|]. rewrite Heq. split.
  - apply prefix_append.
  - rewrite length_append. unfold MQTT_STATE_TOPIC. simpl. lia.
Qed.

(** C9: neither topic contains a wildcard ('+' or '#') or a level
    separator ('/'), so each is a topic a client may publish to and
    consists of a single level. *)
Theorem mqtt_topics_single_level :
  (string_existsb is_wildcard MQTT_STATE_TOPIC = false /\
   string_existsb is_level_separator MQTT_STATE_TOPIC = false /\
   valid_publish_topic MQTT_STATE_TOPIC = true /\
   topic_levels MQTT_STATE_TOPIC = [MQTT_STATE_TOPIC]) /\
  (string_existsb is_wildcard MQTT_COMMAND_TOPIC = false /\
   string_existsb is_level_separator MQTT_COMMAND_TOPIC = false /\
   valid_publish_topic MQTT_COMMAND_TOPIC = true /\
   topic_levels MQTT_COMMAND_TOPIC = [MQTT_COMMAND_TOPIC]).
Proof.
  split; (split; [reflexivity|]; split; [reflexivity|];
          split; [reflexivity|]; by apply topic_levels_no_separator).
Qed.

(** C10: WEBSOCKET_PORT is the port right after HTTP_SERVER_PORT (81
    after 80), so the two listeners are on consecutive, different
    ports. *)
Theorem websocket_port_follows_http :
  WEBSOCKET_PORT = HTTP_SERVER_PORT + 1 /\
  HTTP_SERVER_PORT = 80 /\ WEBSOCKET_PORT = 81 /\
  HTTP_SERVER_PORT <> WEBSOCKET_PORT.
Proof.
  unfold WEBSOCKET_PORT, HTTP_SERVER_PORT. repeat split; lia.
Qed.

(** ** The macro table: lookups, edits and order *)

Section PreprocessMore.

Implicit Types (ds : list directive) (m : gmap string pp_token)
               (n : string) (v b : pp_token).

(** In a file that names nothing twice, a name expands to the replacement
    list of the line that defines it. *)
Lemma preprocess_lookup_define ds m i n b :
  NoDup (directive_name <$> ds) ->
  ds !! i = Some (Define n b) ->
  preprocess ds m !! n = Some b.
Proof.
  intros Hnd Hi.
  pose proof (take_drop_middle _ _ _ Hi) as Hsplit.
  rewrite <- Hsplit in Hnd. rewrite <- Hsplit.
  rewrite preprocess_app. simpl.
  rewrite preprocess_untouched; [apply lookup_insert_eq|].
  rewrite fmap_app, fmap_cons in Hnd.
  apply NoDup_app in Hnd as (_ & _ & Hnd).
  apply NoDup_cons in Hnd as [Hnotin _].
  apply Forall_forall. intros d Hd Heq. apply Hnotin.
  apply list_elem_of_fmap. exists d. by split.
Qed.

(** What a name expands to after [ds] depends on the table before [ds]
    only through that name. *)
Lemma preprocess_lookup_ext ds m1 m2 n :
  m1 !! n = m2 !! n -> preprocess ds m1 !! n = preprocess ds m2 !! n.
Proof.
  revert m1 m2. induction ds as [|d ds IH]; intros m1 m2 Heq; simpl; [done|].
  apply IH. destruct (decide (directive_name d = n)) as [<-|Hne].
  - destruct d as [name body|name]; simpl.
    + by rewrite !lookup_insert_eq.
    + by rewrite !lookup_delete_eq.
  - by rewrite !exec_other.
Qed.

(** Two directives on different names can be exchanged. *)
Lemma exec_comm (d1 d2 : directive) m :
  directive_name d1 ≠ directive_name d2 ->
  exec d1 (exec d2 m) = exec d2 (exec d1 m).
Proof.
  destruct d1 as [n1 b1|n1], d2 as [n2 b2|n2]; simpl; intros Hne.
  - by apply insert_insert_ne.
  - by rewrite delete_insert_ne.
  - by rewrite delete_insert_ne.
  - apply delete_delete.
Qed.

(** The order of the lines of a file that names nothing twice does not
    matter. *)
Lemma preprocess_Permutation ds ds' :
  ds ≡ₚ ds' ->
  forall m, NoDup (directive_name <$> ds) -> preprocess ds m = preprocess ds' m.
Proof.
  induction 1 as [|d l l' Hp IH|d1 d2 l|l l' l'' Hp1 IH1 Hp2 IH2];
    intros m Hnd.
  - done.
  - simpl. apply IH. rewrite fmap_cons in Hnd. by apply NoDup_cons in Hnd as [_ ?].
  - simpl. f_equal. apply exec_comm.
    rewrite !fmap_cons in Hnd. apply NoDup_cons in Hnd as [Hnotin _].
    intros Heq. apply Hnotin. rewrite Heq. apply list_elem_of_here.
  - rewrite IH1 by done. apply IH2. by rewrite <- Hp1.
Qed.

Lemma preprocess_strict_app ds1 ds2 m :
  preprocess_strict (ds1 ++ ds2) m =
  match preprocess_strict ds1 m with
  | Some m' => preprocess_strict ds2 m'
  | None => None
  end.
Proof.
  revert m. induction ds1 as [|d ds1 IH]; intros m; simpl; [done|].
  destruct (exec_strict d m); [apply IH | done].
Qed.

(** Definitions of names that are not macros yet and do not repeat are
    all accepted, with the table [preprocess] computes. *)
Lemma preprocess_strict_fresh ds m :
  forallb is_define ds = true ->
  NoDup (directive_name <$> ds) ->
  (forall n, n ∈ directive_name <$> ds -> m !! n = None) ->
  preprocess_strict ds m = Some (preprocess ds m).
Proof.
  revert m. induction ds as [|d ds IH]; intros m Hdef Hnd Hfresh; [done|].
  simpl in Hdef. apply andb_true_iff in Hdef as [Hd Hdef].
  rewrite fmap_cons in Hnd. apply NoDup_cons in Hnd as [Hnotin Hnd].
  destruct d as [name body|name]; [|done]. simpl in *.
  rewrite (Hfresh name) by apply list_elem_of_here.
  apply IH; [done..|].
  intros n Hn. rewrite lookup_insert_ne.
  - apply Hfresh. by apply list_elem_of_further.
  - intros ->. by apply Hnotin.
Qed.

(** Definitions the table already has, word for word, are accepted and
    change nothing. *)
Lemma preprocess_strict_agrees ds m :
  Forall (agrees m) ds -> preprocess_strict ds m = Some m.
Proof.
  induction 1 as [|d ds Hd _ IH]; [done|].
  destruct d as [name body|name]; [|done]. simpl in *.
  rewrite Hd. by rewrite decide_True.
Qed.

End PreprocessMore.

(** ** The header as a whole *)

Lemma config_h_elem_define (d : directive) :
  d ∈ config_h -> exists n b, d = Define n b.
Proof.
  intros Hd. pose proof config_h_only_defines as Hall.
  rewrite forallb_forall in Hall.
  specialize (Hall d (proj1 (list_elem_of_In _ _) Hd)).
  destruct d as [n b|n]; [by exists n, b | done].
Qed.

Lemma expand_at_define (k i : nat) (name : string) (v : pp_token) :
  (i < k)%nat ->
  config_h !! i = Some (Define name v) ->
  expand_at k name = Some v.
Proof.
  intros Hlt Hi. unfold expand_at, macros_at.
  eapply preprocess_lookup_define; [apply config_h_take_NoDup|].
  by rewrite lookup_take_lt.
Qed.

Lemma expand_at_Some_inv (k : nat) (name : string) (v : pp_token) :
  expand_at k name = Some v ->
  exists i, (i < k)%nat /\ config_h !! i = Some (Define name v).
Proof.
  intros Hk. pose proof Hk as Hin. unfold expand_at, macros_at in Hin.
  apply preprocess_defined in Hin.
  apply list_elem_of_fmap in Hin as (d & Hname & Hd).
  apply list_elem_of_lookup in Hd as (i & Hi).
  apply lookup_take_Some in Hi as (Hi & Hlt).
  destruct (config_h_elem_define d) as (n & b & ->).
  { apply list_elem_of_lookup. by exists i. }
  simpl in Hname. subst n.
  pose proof (expand_at_define k i name b Hlt Hi) as Hb.
  rewrite Hk in Hb. injection Hb as ->. by exists i.
Qed.

(** A name the header never mentions is no macro at any point. *)
Lemma expand_at_None_outside (k : nat) (x : string) :
  x ∉ config_names -> expand_at k x = None.
Proof.
  intros Hx. destruct (expand_at k x) as [v|] eqn:Hk; [|done].
  exfalso. apply Hx.
  apply expand_at_Some_inv in Hk as (i & _ & Hi).
  apply list_elem_of_fmap. exists (Define x v). split; [done|].
  apply list_elem_of_lookup. by exists i.
Qed.

Lemma config_h_bodies_closed :
  forallb (body_closed config_names) config_h = true.
Proof. vm_compute. reflexivity. Qed.

Lemma macros_at_end : macros_at (length config_h) = preprocess config_h ∅.
Proof. unfold macros_at. by rewrite firstn_all. Qed.

Lemma config_h_end_agrees :
  Forall (agrees (macros_at (length config_h))) config_h.
Proof.
  apply Forall_forall. intros d Hd.
  destruct (config_h_elem_define d Hd) as (n & b & ->).
  apply list_elem_of_lookup in Hd as (i & Hi). simpl.
  apply (expand_at_define _ i); [|done].
  by apply lookup_lt_Some in Hi.
Qed.

(** Including again a header whose definitions the table already has
    changes nothing, however often. *)
Lemma include_times_agrees (n : nat) (h : list directive)
    (m : gmap string pp_token) :
  Forall (agrees m) h -> preprocess_strict (include_times n h) m = Some m.
Proof.
  intros Hh. induction n as [|n IH]; simpl; [done|].
  rewrite preprocess_strict_app.
  by rewrite (preprocess_strict_agrees _ _ Hh).
Qed.

(** A second definition with another replacement list is refused. *)
Example conflicting_redefinition_refused :
  preprocess_strict (config_h ++ [Define "NUM_LEDS" (PInt 16)]) ∅ = None.
Proof. vm_compute. reflexivity. Qed.

(** ** Further properties of the header *)

(** X2: the header defines the eleven names below and nothing else. *)
Theorem config_h_defines_exactly (name : string) :
  is_Some (expand_at (length config_h) name) <->
  name ∈ [ "ID_PREFIX"; "NUM_LEDS"; "DATA_PIN"; "MQTT_PORT"; "MQTT_SERVER";
           "MQTT_USER"; "MQTT_PASSWORD"; "MQTT_STATE_TOPIC";
           "MQTT_COMMAND_TOPIC"; "HTTP_SERVER_PORT"; "WEBSOCKET_PORT" ].
Proof.
  split.
  - intros [v Hv].
    destruct (decide (name ∈ config_names)) as [Hin|Hout]; [exact Hin|].
    by rewrite (expand_at_None_outside _ _ Hout) in Hv.
  - intros Hin.
    repeat (apply elem_of_cons in Hin as [->|Hin];
            [eexists; vm_compute; reflexivity|]).
    by apply elem_of_nil in Hin.
Qed.

(** X3: the header has no include guard, and needs none: included any
    number of times, every repeated definition is word for word the one
    already there, so the preprocessor accepts all of them and the macros
    are those of a single inclusion. *)
Theorem config_h_reinclusion (n : nat) :
  (0 < n)%nat ->
  preprocess_strict (include_times n config_h) ∅
  = Some (macros_at (length config_h)).
Proof.
  destruct n as [|n]; [lia|]. intros _.
  change (include_times (S n) config_h)
    with (config_h ++ include_times n config_h).
  rewrite preprocess_strict_app.
  rewrite preprocess_strict_fresh;
    [ | apply config_h_only_defines | apply config_h_names_NoDup
      | intros; apply lookup_empty ].
  rewrite <- macros_at_end.
  apply include_times_agrees, config_h_end_agrees.
Qed.

Lemma config_h_reinclusion_witness :
  (0 < 3)%nat /\
  preprocess_strict (include_times 3 config_h) ∅
  = Some (macros_at (length config_h)).
Proof. split; [lia | apply (config_h_reinclusion 3); lia]. Defined.

(** X4: no replacement list of the header mentions a macro of the header:
    whatever a name expands to is final, at whatever point it is
    rescanned.  In particular DATA_PIN stays the identifier D2, which the
    header leaves to the board's own definitions. *)
Theorem config_h_bodies_final (i j : nat) (name : string) (v : pp_token) :
  expand_at i name = Some v ->
  rescan (macros_at j) v = v.
Proof.
  intros Hi. apply expand_at_Some_inv in Hi as (i' & _ & Hi').
  pose proof config_h_bodies_closed as Hall.
  rewrite forallb_forall in Hall.
  assert (Define name v ∈ config_h) as Hd
    by (apply list_elem_of_lookup; by exists i').
  specialize (Hall _ (proj1 (list_elem_of_In _ _) Hd)).
  destruct v as [z|s|x]; [done..|]. simpl in Hall.
  apply bool_decide_eq_true in Hall.
  unfold rescan. fold (expand_at j x).
  by rewrite (expand_at_None_outside _ _ Hall).
Qed.

Lemma config_h_bodies_final_witness :
  expand_at 3 "DATA_PIN" = Some (PIdent "D2") /\
  rescan (macros_at 11) (PIdent "D2") = PIdent "D2".
Proof.
  assert (expand_at 3 "DATA_PIN" = Some (PIdent "D2")) as H
    by (vm_compute; reflexivity).
  split; [exact H | exact (config_h_bodies_final 3 11 "DATA_PIN" _ H)].
Defined.

(** X5: the lines of the header can be put in any order: the macros at
    the end are the same. *)
Theorem config_h_order_irrelevant (ds : list directive) :
  config_h ≡ₚ ds ->
  preprocess ds ∅ = macros_at (length config_h).
Proof.
  intros Hp. rewrite macros_at_end. symmetry.
  apply preprocess_Permutation; [exact Hp | apply config_h_names_NoDup].
Qed.

Lemma config_h_order_irrelevant_witness :
  config_h ≡ₚ reverse config_h /\
  preprocess (reverse config_h) ∅ = macros_at (length config_h).
Proof.
  assert (config_h ≡ₚ reverse config_h) as H
    by (symmetry; apply reverse_Permutation).
  split; [exact H | exact (config_h_order_irrelevant _ H)].
Defined.

(** ** The header inside a translation unit, and edits of a line *)

(** The table after an edit of line [i], entry by entry. *)
Lemma edit_lookup (i : nat) (n name : string) (b b' : pp_token) :
  config_h !! i = Some (Define n b) ->
  preprocess (<[i := Define n b']> config_h) ∅ !! name
  = if decide (name = n) then Some b' else expand_at (length config_h) name.
Proof.
  intros Hi. pose proof (lookup_lt_Some _ _ _ Hi) as Hlt.
  case_decide as Hname.
  - subst name.
    apply (preprocess_lookup_define _ _ i); [|by apply list_lookup_insert_eq].
    rewrite list_fmap_insert.
    change (directive_name (Define n b')) with n.
    rewrite list_insert_id; [apply config_h_names_NoDup|].
    by rewrite list_lookup_fmap, Hi.
  - unfold expand_at. rewrite macros_at_end.
    rewrite insert_take_drop by done.
    rewrite <- (take_drop_middle _ _ _ Hi) at 3.
    rewrite !preprocess_app. simpl.
    apply preprocess_lookup_ext.
    by rewrite !lookup_insert_ne.
Qed.

Lemma edit_table (i : nat) (n : string) (b b' : pp_token) :
  config_h !! i = Some (Define n b) ->
  preprocess (<[i := Define n b']> config_h) ∅
  = <[n := b']> (macros_at (length config_h)).
Proof.
  intros Hi. apply map_eq. intros name.
  rewrite (edit_lookup i n name b b' Hi). case_decide as Hname.
  - subst name. by rewrite lookup_insert_eq.
  - by rewrite lookup_insert_ne.
Qed.

Lemma macros_at_end_size : size (macros_at (length config_h)) = 11%nat.
Proof. vm_compute. reflexivity. Qed.

Lemma expand_token_final (fuel : nat) (hide : gset string)
    (m : gmap string pp_token) (t : pp_token) :
  final_in m t -> expand_token fuel hide m t = t.
Proof.
  destruct fuel as [|fuel], t as [z|s|x]; simpl; try done.
  intros ->. by case_decide.
Qed.

Lemma expand_name_step (fuel : nat) (m : gmap string pp_token) (x : string) :
  expand_token (S fuel) ∅ m (PIdent x)
  = match m !! x with
    | Some body => expand_token fuel {[x]} m body
    | None => PIdent x
    end.
Proof.
  simpl. rewrite decide_False by set_solver.
  by rewrite (right_id_L ∅ (∪)).
Qed.

(** A replacement list of the header names no macro of the header. *)
Lemma config_h_entry_closed (k : nat) (name : string) (c : pp_token) :
  expand_at k name = Some c ->
  match c with PIdent x => x ∉ config_names | _ => True end.
Proof.
  intros Hk. apply expand_at_Some_inv in Hk as (i & _ & Hi).
  pose proof config_h_bodies_closed as Hall.
  rewrite forallb_forall in Hall.
  assert (Define name c ∈ config_h) as Hd
    by (apply list_elem_of_lookup; by exists i).
  specialize (Hall _ (proj1 (list_elem_of_In _ _) Hd)).
  destruct c as [z|s|x]; [done..|]. simpl in Hall.
  by apply bool_decide_eq_true in Hall.
Qed.

Lemma config_h_entry_final (k : nat) (name : string) (c : pp_token) :
  expand_at k name = Some c -> final_in (macros_at (length config_h)) c.
Proof.
  intros Hk. apply config_h_entry_closed in Hk.
  destruct c as [z|s|x]; [done..|]. simpl.
  by apply (expand_at_None_outside (length config_h)).
Qed.

(** ... and stays so when one of the header's names gets another
    replacement list. *)
Lemma config_h_entry_final_edited (k : nat) (name n : string) (c b' : pp_token) :
  expand_at k name = Some c ->
  n ∈ config_names ->
  final_in (<[n := b']> (macros_at (length config_h))) c.
Proof.
  intros Hk Hn. pose proof (config_h_entry_closed _ _ _ Hk) as Hc.
  destruct c as [z|s|x]; [done..|]. simpl.
  rewrite lookup_insert_ne by (intros ->; by apply Hc).
  by apply (expand_at_None_outside (length config_h)).
Qed.

Lemma expand_other_name (fuel : nat) (n name : string) (b' : pp_token) :
  name ≠ n ->
  n ∈ config_names ->
  expand_token (S fuel) ∅ (<[n := b']> (macros_at (length config_h))) (PIdent name)
  = expand_token (S fuel) ∅ (macros_at (length config_h)) (PIdent name).
Proof.
  intros Hne Hn. rewrite !expand_name_step.
  rewrite lookup_insert_ne by done.
  destruct (macros_at (length config_h) !! name) as [c|] eqn:Hc; [|done].
  rewrite (expand_token_final _ _ _ _ (config_h_entry_final _ _ _ Hc)).
  by rewrite (expand_token_final _ _ _ _
                (config_h_entry_final_edited _ _ n _ b' Hc Hn)).
Qed.

Lemma expand_edited_name (fuel : nat) (n : string) (b' : pp_token) :
  n ∈ config_names ->
  expand_token (S (S fuel)) ∅ (<[n := b']> (macros_at (length config_h))) (PIdent n)
  = rescan (delete n (macros_at (length config_h))) b'.
Proof.
  intros Hn. rewrite expand_name_step, lookup_insert_eq.
  destruct b' as [z|s|x]; [done..|]. unfold rescan. cbn [expand_token].
  destruct (decide (x = n)) as [->|Hne].
  - rewrite decide_True by set_solver. by rewrite lookup_delete_eq.
  - rewrite decide_False by set_solver.
    rewrite lookup_insert_ne, lookup_delete_ne by (intros Heq; by apply Hne).
    destruct (macros_at (length config_h) !! x) as [c|] eqn:Hc; [|done].
    by rewrite (expand_token_final _ _ _ _
                  (config_h_entry_final_edited _ _ n _ (PIdent x) Hc Hn)).
Qed.



(** X6: no field of the header is derived from another one.  When the
    macro of one line gets another replacement list [b'], every other
    name expands, to the end, to what it expanded to before; the edited
    name expands to [b'], replaced once more if [b'] is itself another
    name of the header (and left alone if [b'] is the edited name). *)
Theorem config_h_fields_independent (i : nat) (n name : string)
    (b b' : pp_token) :
  config_h !! i = Some (Define n b) ->
  full_expand (preprocess (<[i := Define n b']> config_h) ∅) (PIdent name)
  = if decide (name = n)
    then rescan (delete n (macros_at (length config_h))) b'
    else full_expand (macros_at (length config_h)) (PIdent name).
Proof.
  intros Hi. rewrite (edit_table i n b b' Hi).
  assert (n ∈ config_names) as Hn.
  { apply list_elem_of_fmap. exists (Define n b). split; [done|].
    apply list_elem_of_lookup. by exists i. }
  assert (macros_at (length config_h) !! n = Some b) as Hb.
  { apply (expand_at_define _ i); [by apply lookup_lt_Some in Hi | done]. }
  unfold full_expand.
  rewrite map_size_insert_Some, macros_at_end_size by (by rewrite Hb).
  case_decide as Hname.
  - subst name. by apply (expand_edited_name 10).
  - by apply (expand_other_name 11).
Qed.

Lemma config_h_fields_independent_witness :
  config_h !! 1%nat = Some (Define "NUM_LEDS" (PInt 8)) /\
  full_expand
    (preprocess (<[1%nat := Define "NUM_LEDS" (PIdent "MQTT_PORT")]> config_h) ∅)
    (PIdent "NUM_LEDS")
  = PInt 1883.
Proof.
  split; [reflexivity|].
  etrans;
    [ apply (config_h_fields_independent 1 "NUM_LEDS" "NUM_LEDS"
               (PInt 8) (PIdent "MQTT_PORT")); reflexivity
    | vm_compute; reflexivity ].
Defined.
